(** * Code-Tutor: the bounded Fibonacci printer of [test-code.py]

    A shallow embedding of

<<
    def fibonacci(n):
        a, b = 0, 1
        while a < n:
            print(a, end=' ')
            a, b = b, a + b
        print()

    if __name__ == "__main__":
        fibonacci(100)
>>

    Python integers are unbounded, so [a], [b] and an integer bound are
    [Z].  A finite bound that is not an integer (a [float], a
    [Fraction]) is compared exactly with the integer [a]; such bounds are
    rationals.

    Standard output is the list of [print] calls made so far; the text
    on the terminal and the numbers printed are both read off that list.

    [print] converts its argument with [str], and CPython refuses to
    convert an [int] of more than 4300 decimal digits (the default of
    [sys.set_int_max_str_digits]): it raises [ValueError].  So the loop
    body can fail, and a call has one of two outcomes: it returns, or it
    raises with the output written up to then.

    The [while] loop is not structurally recursive: it is run with fuel,
    and that enough fuel always exists is a theorem ([fibonacci_run],
    [C9_terminates]). *)

From Stdlib Require Import ZArith QArith Qround String Ascii.
From Stdlib Require Import DecimalString DecimalFacts DecimalPos.
From Stdlib Require Import List Sorted Lia.
Import ListNotations.
Open Scope Z_scope.

(** ** The Python builtins the program uses *)

Module Py.

(** The one exception met in this program. *)
Inductive exn : Type := ValueError.

(** The decimal numeral of an integer: digits, a leading minus sign when
    negative. *)
Definition digits (z : Z) : string := NilZero.string_of_int (Z.to_int z).

(** The line feed written by a bare [print()]. *)
Definition nl : string := String (ascii_of_nat 10) EmptyString.

(** [sys.int_info.default_max_str_digits] *)
Definition int_max_str_digits : nat := 4300.

(** [str(z)] for an [int]: the decimal numeral, unless it has more
    digits (the sign not counted) than the limit. *)
Definition str (z : Z) : exn + string :=
  let s := digits z in
  let negative := if z <? 0 then 1%nat else 0%nat in
  if (int_max_str_digits <? String.length s - negative)%nat
  then inl ValueError
  else inr s.

(** One call [print( *args, sep=.., end=..)]. *)
Record print_call : Type :=
  { args : list Z; sep : string; end_ : string }.

(** The characters one completed call has written: the arguments joined
    by [sep], then [end]. *)
Definition render (c : print_call) : string :=
  (String.concat (sep c) (map digits (args c)) ++ end_ c)%string.

(** Standard output, as the calls made so far, oldest first. *)
Definition stdout : Type := list print_call.

Fixpoint cat (l : list string) : string :=
  match l with
  | [] => EmptyString
  | s :: l' => (s ++ cat l')%string
  end.

(** What the terminal shows. *)
Definition text (w : stdout) : string := cat (map render w).

(** The numbers that were printed, in order. *)
Definition emitted (w : stdout) : list Z := flat_map args w.

(** How a piece of code ends: it returns a value, or it raises, leaving
    standard output as [w]. *)
Inductive outcome (A : Type) : Type :=
| Return (x : A)
| Raise (e : exn) (w : stdout).

Arguments Return {A} x.
Arguments Raise {A} e w.

(** [print] writes its arguments one after the other, converting each
    with [str] when its turn comes: the arguments written before the
    first one [str] refuses, and the exception if there is one. *)
Fixpoint write_args (l : list Z) : list Z * option exn :=
  match l with
  | [] => ([], None)
  | x :: l' =>
      match str x with
      | inl e => ([], Some e)
      | inr _ => let (p, r) := write_args l' in (x :: p, r)
      end
  end.

(** A call of [print] when standard output holds [w].  When [str]
    refuses an argument, the ones before it have been written, each
    followed by [sep], and [end] has not. *)
Definition print (c : print_call) (w : stdout) : outcome stdout :=
  match write_args (args c) with
  | (_, None) => Return (w ++ [c])
  | ([], Some e) => Raise e w
  | (p, Some e) => Raise e (w ++ [{| args := p; sep := sep c; end_ := sep c |}])
  end.

End Py.
Import Py.

(** ** The program *)

(** The local variables of [fibonacci] together with standard output. *)
Record State : Type := { a : Z; b : Z; out : stdout }.

(** [a, b = 0, 1] *)
Definition init (w : stdout) : State := {| a := 0; b := 1; out := w |}.

(** [a < n] *)
Definition cond (n : Z) (s : State) : bool := a s <? n.

(** [print(a, end=' ')]: [sep] keeps its default, a space. *)
Definition print_term (x : Z) : print_call :=
  {| args := [x]; sep := " "; end_ := " " |}.

(** [print()]: no argument, default [sep] and [end]. *)
Definition print_newline : print_call :=
  {| args := []; sep := " "; end_ := nl |}.

(** The loop body when its [print] succeeds.  The tuple assignment
    [a, b = b, a + b] evaluates its right-hand side with the old
    values. *)
Definition advance (s : State) : State :=
  {| a := b s; b := a s + b s; out := out s ++ [print_term (a s)] |}.

(** The loop body: an exception raised by [print] leaves it before the
    assignment. *)
Definition body (s : State) : outcome State :=
  match print (print_term (a s)) (out s) with
  | Return w' => Return {| a := b s; b := a s + b s; out := w' |}
  | Raise e w' => Raise e w'
  end.

(** [while a < n: body].  [None] means the fuel ran out. *)
Fixpoint while_loop (fuel : nat) (n : Z) (s : State) : option (outcome State) :=
  match fuel with
  | O => None
  | S fuel' =>
      if cond n s then
        match body s with
        | Return s' => while_loop fuel' n s'
        | Raise e w' => Some (Raise e w')
        end
      else Some (Return s)
  end.

(** [fibonacci(n)], called when standard output already holds [w]. *)
Definition fibonacci (fuel : nat) (n : Z) (w : stdout) : option (outcome stdout) :=
  match while_loop fuel n (init w) with
  | Some (Return s) => Some (print print_newline (out s))
  | Some (Raise e w') => Some (Raise e w')
  | None => None
  end.

(** [if __name__ == "__main__": fibonacci(100)] *)
Definition main (fuel : nat) (w : stdout) : option (outcome stdout) :=
  fibonacci fuel 100 w.

(** The same function called with a rational bound [q]: only the test
    [a < q] changes, Python comparing an [int] with a non-integer number
    exactly. *)
Definition cond_num (q : Q) (s : State) : bool :=
  negb (Qle_bool q (inject_Z (a s))).

Fixpoint while_loop_num (fuel : nat) (q : Q) (s : State) : option (outcome State) :=
  match fuel with
  | O => None
  | S fuel' =>
      if cond_num q s then
        match body s with
        | Return s' => while_loop_num fuel' q s'
        | Raise e w' => Some (Raise e w')
        end
      else Some (Return s)
  end.

Definition fibonacci_num (fuel : nat) (q : Q) (w : stdout) : option (outcome stdout) :=
  match while_loop_num fuel q (init w) with
  | Some (Return s) => Some (print print_newline (out s))
  | Some (Raise e w') => Some (Raise e w')
  | None => None
  end.

(** A bound: a Python [int], or another finite number, given by the
    rational it denotes. *)
Inductive Bound : Type :=
| Integer (n : Z)
| Rational (q : Q).

(** The loop and the call, for either kind of bound. *)
Definition loop (fuel : nat) (bd : Bound) (s : State) : option (outcome State) :=
  match bd with
  | Integer n => while_loop fuel n s
  | Rational q => while_loop_num fuel q s
  end.

Definition call (fuel : nat) (bd : Bound) (w : stdout) : option (outcome stdout) :=
  match bd with
  | Integer n => fibonacci fuel n w
  | Rational q => fibonacci_num fuel q w
  end.

(** The bound as a number. *)
Definition value (bd : Bound) : Q :=
  match bd with
  | Integer n => inject_Z n
  | Rational q => q
  end.

(** [t] is strictly below the bound. *)
Definition below (t : Z) (bd : Bound) : Prop :=
  match bd with
  | Integer n => t < n
  | Rational q => (inject_Z t < q)%Q
  end.

(** The least integer that is not below the bound. *)
Definition ceiling (bd : Bound) : Z :=
  match bd with
  | Integer n => n
  | Rational q => Qceiling q
  end.

(** The outcome that returns ([None]) or raises [e] ([Some e]) with
    standard output [w]. *)
Definition finish (r : option exn) (w : stdout) : outcome stdout :=
  match r with
  | None => Return w
  | Some e => Raise e w
  end.

(** [writes n d]: a call [fibonacci(n)] returns and appends exactly the
    calls [d] to standard output, whatever was written before. *)
Definition writes (n : Z) (d : stdout) : Prop :=
  forall w, exists fuel, fibonacci fuel n w = Some (Return (w ++ d)).

(** [writes_num q d]: as [writes], for a call with the rational bound
    [q]. *)
Definition writes_num (q : Q) (d : stdout) : Prop :=
  forall w, exists fuel, fibonacci_num fuel q w = Some (Return (w ++ d)).

(** [finishes bd r d]: a call with the bound [bd] ends, returning when
    [r] is [None] and raising [e] when [r] is [Some e], and up to then
    appends exactly the calls [d] to standard output, whatever was
    written before. *)
Definition finishes (bd : Bound) (r : option exn) (d : stdout) : Prop :=
  forall w, exists fuel, call fuel bd w = Some (finish r (w ++ d)).

(** The loop states a call [fibonacci(n)] passes through at the head of
    the loop, starting with standard output [w]. *)
Inductive Reach (n : Z) (w : stdout) : State -> Prop :=
| Reach_init : Reach n w (init w)
| Reach_step s s' :
    Reach n w s -> cond n s = true -> body s = Return s' -> Reach n w s'.

(** ** The mathematical sequence the claims refer to *)

(** The Fibonacci sequence 0, 1, 1, 2, 3, 5, ... *)
Fixpoint fib (k : nat) : Z :=
  match k with
  | O => 0
  | S k' =>
      match k' with
      | O => 1
      | S k'' => fib k'' + fib k'
      end
  end.

(** Its first [k] terms. *)
Definition fibs (k : nat) : list Z := map fib (seq 0 k).

(** The least number that has more digits than [str] accepts: 1 followed
    by 4300 zeros. *)
Definition str_limit : Z := 10 ^ Z.of_nat int_max_str_digits.

(** [l1] is an initial segment of [l2]. *)
Definition Prefix {A : Type} (l1 l2 : list A) : Prop :=
  exists t, l2 = l1 ++ t.

(** Each term followed by one space: what a run of [print(t, end=' ')]
    shows. *)
Definition spaced (ts : list Z) : string :=
  cat (map (fun t => (digits t ++ " ")%string) ts).

(** The terms with one space between neighbours, as [' '.join] builds. *)
Definition space_joined (ts : list Z) : string :=
  String.concat " " (map digits ts).

(** [ts] obeys the recurrence next = current + previous, [pred] standing
    in for the term before the first one. *)
Definition recurrence_from (pred : Z) (ts : list Z) : Prop :=
  let ext := pred :: ts in
  forall i, (S (S i) < length ext)%nat ->
            nth (S (S i)) ext 0 = nth i ext 0 + nth (S i) ext 0.

(** The accumulator pair at the head of the loop, in a call that started
    with standard output [w]: the first [k] terms have been printed, [a]
    is the term that comes next and [b] the one after it, which is [a]
    plus the term printed last (1 standing in before any was). *)
Definition acc_inv (w : stdout) (s : State) : Prop :=
  exists k,
    out s = w ++ map print_term (fibs k) /\
    a s = fib k /\ b s = fib (S k) /\
    b s = a s + last (fibs k) 1.

(** The calls of one run of [fibonacci] that prints the terms [ts] and
    returns. *)
Definition calls_of (ts : list Z) : stdout :=
  map print_term ts ++ [print_newline].

(** The calls of one run of [fibonacci] that prints the terms [ts] and
    then returns ([None]) or raises ([Some e]): the final [print()] is
    made only in the first case. *)
Definition appended (r : option exn) (ts : list Z) : stdout :=
  match r with
  | None => calls_of ts
  | Some _ => map print_term ts
  end.

(** Standard output with [w] written first. *)
Definition frame_state (w : stdout) (s : State) : State :=
  {| a := a s; b := b s; out := w ++ out s |}.

Definition frame {A : Type} (f : A -> A) (w : stdout) (o : outcome A) : outcome A :=
  match o with
  | Return x => Return (f x)
  | Raise e w' => Raise e (w ++ w')
  end.

(** The characters of a string, in order. *)
Definition chars (s : string) : list ascii := list_ascii_of_string s.

(** A decimal digit, ASCII 48 to 57. *)
Definition is_digit (c : ascii) : bool :=
  ((48 <=? nat_of_ascii c)%nat && (nat_of_ascii c <=? 57)%nat)%bool.

(** A decimal digit or the space, ASCII 32. *)
Definition digit_or_space (c : ascii) : bool :=
  (is_digit c || (nat_of_ascii c =? 32)%nat)%bool.

(** ** Running the program on small inputs *)

Example fibonacci_2 :
  fibonacci 4 2 [] = Some (Return (calls_of [0; 1; 1])) /\
  text (calls_of [0; 1; 1]) = ("0 1 1 " ++ nl)%string.
Proof. split; reflexivity. Qed.

Example fibonacci_2_short_of_fuel : fibonacci 3 2 [] = None.
Proof. reflexivity. Qed.

Example fibonacci_neg : fibonacci 1 (-7) [] = Some (Return [print_newline]).
Proof. reflexivity. Qed.

(** A bound strictly between 0 and 1: only 0 is emitted. *)
Example fibonacci_half :
  fibonacci_num 2 (1 # 2) [] = Some (Return (calls_of [0])).
Proof. reflexivity. Qed.

(** ** Facts about the Fibonacci sequence *)

Section FibFacts.

Lemma fib_SS (k : nat) : fib (S (S k)) = fib k + fib (S k).
Proof. reflexivity. Qed.

Lemma fib_sign (k : nat) : 0 <= fib k /\ 0 < fib (S k).
Proof.
  induction k as [|k [IH0 IH1]].
  - simpl. lia.
  - rewrite fib_SS. lia.
Qed.

Lemma fib_nonneg (k : nat) : 0 <= fib k.
Proof. apply fib_sign. Qed.

Lemma fib_S_pos (k : nat) : 0 < fib (S k).
Proof. apply fib_sign. Qed.

Lemma fib_le_S (k : nat) : fib k <= fib (S k).
Proof.
  destruct k as [|k].
  - simpl. lia.
  - rewrite fib_SS. pose proof (fib_nonneg k). lia.
Qed.

Lemma fib_mono (i j : nat) : (i <= j)%nat -> fib i <= fib j.
Proof.
  induction 1 as [|j _ IH].
  - lia.
  - pose proof (fib_le_S j). lia.
Qed.

(** The sequence outgrows every integer. *)
Lemma fib_grows (k : nat) : Z.of_nat k <= fib (S k).
Proof.
  induction k as [|k IH].
  - simpl. lia.
  - rewrite fib_SS. destruct k as [|k].
    + simpl. lia.
    + pose proof (fib_S_pos k). lia.
Qed.

Lemma fib_reaches (n : Z) : exists K, n <= fib K.
Proof.
  exists (S (Z.to_nat n)). pose proof (fib_grows (Z.to_nat n)). lia.
Qed.

(** The index of the first term that is not below [n]. *)
Lemma first_not_below (n : Z) :
  exists k, n <= fib k /\ forall i, (i < k)%nat -> fib i < n.
Proof.
  destruct (fib_reaches n) as [K HK].
  induction K as [|K IH].
  - exists O. split; [exact HK | intros i Hi; lia].
  - destruct (Z_le_gt_dec n (fib K)) as [Hle|Hgt].
    + exact (IH Hle).
    + exists (S K). split; [exact HK|].
      intros i Hi. assert (fib i <= fib K) by (apply fib_mono; lia). lia.
Qed.

Lemma fibs_S (k : nat) : fibs (S k) = fibs k ++ [fib k].
Proof. unfold fibs. rewrite seq_S, map_app. reflexivity. Qed.

Lemma fibs_length (k : nat) : length (fibs k) = k.
Proof. unfold fibs. rewrite length_map, length_seq. reflexivity. Qed.

Lemma fibs_nth (k i : nat) (d : Z) : (i < k)%nat -> nth i (fibs k) d = fib i.
Proof.
  intros Hi. unfold fibs.
  rewrite (nth_indep _ d (fib 0)) by (rewrite length_map, length_seq; exact Hi).
  rewrite map_nth, seq_nth by exact Hi. reflexivity.
Qed.

Lemma fibs_In (k : nat) (t : Z) :
  In t (fibs k) -> exists i, (i < k)%nat /\ t = fib i.
Proof.
  unfold fibs. rewrite in_map_iff. intros [i [Hi Hin]].
  apply in_seq in Hin. exists i. split; [lia | congruence].
Qed.

Lemma fibs_prefix (j k : nat) : (j <= k)%nat -> Prefix (fibs j) (fibs k).
Proof.
  induction 1 as [|k _ [t Ht]].
  - exists []. rewrite app_nil_r. reflexivity.
  - exists (t ++ [fib k]). rewrite fibs_S, Ht, app_assoc. reflexivity.
Qed.

Lemma fib_seq_sorted (k j : nat) : Sorted Z.le (map fib (seq j k)).
Proof.
  revert j. induction k as [|k IH]; intros j; simpl.
  - constructor.
  - constructor; [apply IH|].
    destruct k as [|k]; simpl; constructor. apply fib_le_S.
Qed.

Lemma fibs_recurrence (k : nat) : recurrence_from 1 (fibs k).
Proof.
  unfold recurrence_from. cbv zeta. intros i Hi. simpl length in Hi.
  rewrite fibs_length in Hi.
  destruct i as [|i]; simpl nth.
  - rewrite !fibs_nth by lia. reflexivity.
  - rewrite !fibs_nth by lia. apply fib_SS.
Qed.

Lemma fibs_below (n : Z) (k : nat) :
  (forall i, (i < k)%nat -> fib i < n) -> Forall (fun t => t < n) (fibs k).
Proof.
  intros Hlt. apply Forall_forall. intros t Ht.
  destruct (fibs_In _ _ Ht) as [i [Hi ->]]. now apply Hlt.
Qed.

Lemma fibs_last (k : nat) (d : Z) : last (fibs (S k)) d = fib k.
Proof. rewrite fibs_S. apply last_last. Qed.

Lemma first_not_below_iff (n : Z) (k : nat) :
  n <= fib k -> (forall i, (i < k)%nat -> fib i < n) ->
  forall j, (j < k)%nat <-> fib j < n.
Proof.
  intros Hge Hlt j. split; [apply Hlt|].
  intros Hj. destruct (Nat.lt_ge_cases j k) as [H|H]; [exact H|].
  pose proof (fib_mono k j H). lia.
Qed.


(** From the third term on the sequence increases strictly. *)
Lemma fib_lt_S (i : nat) : (2 <= i)%nat -> fib i < fib (S i).
Proof.
  intros Hi. destruct i as [|[|i]]; try lia.
  rewrite (fib_SS (S i)). pose proof (fib_S_pos i). lia.
Qed.

Lemma fib_strict (i j : nat) : (2 <= i)%nat -> (i < j)%nat -> fib i < fib j.
Proof.
  intros Hi Hij. induction Hij as [|j Hij IH].
  - now apply fib_lt_S.
  - pose proof (fib_le_S j). lia.
Qed.

(** A term is at most twice the one before it. *)
Lemma fib_S_le_double (i : nat) : fib (S (S i)) <= 2 * fib (S i).
Proof. rewrite fib_SS. pose proof (fib_le_S i). lia. Qed.

(** The odd-numbered terms at least double each time. *)
Lemma fib_odd_pow2 (j : nat) : 2 ^ Z.of_nat j <= fib (S (2 * j)).
Proof.
  induction j as [|j IH].
  - simpl. lia.
  - replace (S (2 * S j)) with (S (S (S (2 * j)))) by lia.
    rewrite Nat2Z.inj_succ, Z.pow_succ_r by lia.
    rewrite fib_SS. pose proof (fib_le_S (S (2 * j))). lia.
Qed.

(** The number of terms below [n] is logarithmic in [n]. *)
Lemma count_below_log (n : Z) (k : nat) :
  1 <= n -> (forall i, (i < k)%nat -> fib i < n) ->
  Z.of_nat k <= 2 * Z.log2 n + 3.
Proof.
  intros Hn Hlt.
  destruct (Z_le_gt_dec (Z.of_nat k) (2 * Z.log2 n + 3)) as [H|H]; [exact H|].
  exfalso.
  pose proof (Z.log2_nonneg n) as HL.
  set (j := Z.to_nat (Z.log2 n + 1)).
  assert (Hj : Z.of_nat j = Z.log2 n + 1) by (unfold j; lia).
  assert (Hk : (S (2 * j) < k)%nat) by lia.
  pose proof (Hlt _ Hk) as Hfib.
  pose proof (fib_odd_pow2 j) as Hpow. rewrite Hj in Hpow.
  assert (n < 2 ^ (Z.log2 n + 1)).
  { pose proof (Z.log2_spec n ltac:(lia)) as Hs.
    unfold Z.succ in Hs. lia. }
  lia.
Qed.

(** At least three terms are below every bound from 2 on. *)
Lemma count_below_ge_3 (n : Z) (k : nat) :
  2 <= n -> n <= fib k -> (3 <= k)%nat.
Proof.
  intros Hn Hge. destruct k as [|[|[|k]]]; simpl in Hge; lia.
Qed.


End FibFacts.

(** ** Standard output: text and printed numbers of a list of calls *)

Section Output.

Lemma append_assoc (s1 s2 s3 : string) :
  ((s1 ++ s2) ++ s3 = s1 ++ (s2 ++ s3))%string.
Proof. induction s1 as [|c s1 IH]; simpl; [reflexivity | now rewrite IH]. Qed.

Lemma cat_app (l1 l2 : list string) :
  cat (l1 ++ l2) = (cat l1 ++ cat l2)%string.
Proof.
  induction l1 as [|s l1 IH]; simpl; [reflexivity|].
  rewrite IH, append_assoc. reflexivity.
Qed.

Lemma text_app (w1 w2 : stdout) : text (w1 ++ w2) = (text w1 ++ text w2)%string.
Proof. unfold text. rewrite map_app. apply cat_app. Qed.

Lemma emitted_app (w1 w2 : stdout) : emitted (w1 ++ w2) = emitted w1 ++ emitted w2.
Proof. apply flat_map_app. Qed.

Lemma text_print_terms (ts : list Z) : text (map print_term ts) = spaced ts.
Proof. unfold text, spaced. rewrite map_map. reflexivity. Qed.

Lemma emitted_print_terms (ts : list Z) : emitted (map print_term ts) = ts.
Proof.
  unfold emitted. induction ts as [|t ts IH]; simpl; [reflexivity | now rewrite IH].
Qed.

Lemma text_calls_of (ts : list Z) : text (calls_of ts) = (spaced ts ++ nl)%string.
Proof. unfold calls_of. rewrite text_app, text_print_terms. reflexivity. Qed.

Lemma emitted_calls_of (ts : list Z) : emitted (calls_of ts) = ts.
Proof.
  unfold calls_of. rewrite emitted_app, emitted_print_terms. apply app_nil_r.
Qed.


Lemma spaced_cons (t : Z) (ts : list Z) :
  spaced (t :: ts) = (digits t ++ " " ++ spaced ts)%string.
Proof. unfold spaced. simpl. apply append_assoc. Qed.

(** Printing every term with [end=' '] leaves one space more than
    joining the terms with spaces. *)
Lemma spaced_space_joined (ts : list Z) :
  ts <> [] -> spaced ts = (space_joined ts ++ " ")%string.
Proof.
  induction ts as [|t ts IH]; intros Hne; [congruence|].
  rewrite spaced_cons. destruct ts as [|t' ts].
  - reflexivity.
  - rewrite IH by discriminate.
    unfold space_joined. simpl. rewrite !append_assoc. reflexivity.
Qed.


End Output.

(** ** How many digits a number has, and when [str] accepts it *)

Section DigitCount.

(** Reading the digits [u] after the digits read so far, of value
    [acc], gives a number that starts with [acc]. *)
Lemma of_uint_acc_bounds (u : Decimal.uint) (acc : positive) :
  Z.pos acc * 10 ^ Z.of_nat (Decimal.nb_digits u) <= Z.pos (Pos.of_uint_acc u acc) /\
  Z.pos (Pos.of_uint_acc u acc) < (Z.pos acc + 1) * 10 ^ Z.of_nat (Decimal.nb_digits u).
Proof.
  revert acc.
  induction u as [|u IH|u IH|u IH|u IH|u IH|u IH|u IH|u IH|u IH|u IH]; intros acc;
    cbn [Pos.of_uint_acc Decimal.nb_digits];
    [ rewrite Z.pow_0_r; lia | .. ];
    rewrite Nat2Z.inj_succ, Z.pow_succ_r by lia;
    match goal with
    | |- context [Pos.of_uint_acc u ?x] => destruct (IH x) as [Hlo Hhi]
    end;
    pose proof (Z.pow_pos_nonneg 10 (Z.of_nat (Decimal.nb_digits u))
                  ltac:(lia) ltac:(lia));
    set (P := 10 ^ Z.of_nat (Decimal.nb_digits u)) in *;
    split; nia.
Qed.

Lemma string_of_uint_length (u : Decimal.uint) :
  String.length (NilEmpty.string_of_uint u) = Decimal.nb_digits u.
Proof. induction u; simpl; congruence. Qed.

Lemma nzhead_not_D0 (u v : Decimal.uint) : Decimal.nzhead u <> Decimal.D0 v.
Proof. induction u; simpl; try discriminate; assumption. Qed.

(** The numeral of a positive number has no leading zero. *)
Lemma to_uint_unorm (p : positive) : Decimal.unorm (Pos.to_uint p) = Pos.to_uint p.
Proof.
  rewrite <- (Unsigned.to_of (Pos.to_uint p)), Unsigned.of_to. reflexivity.
Qed.

(** One case of [digits_pos_bounds]: the numeral starts with the digit
    of value [k], followed by [u]. *)
Ltac leading_digit u Hof k :=
  exists (Decimal.nb_digits u);
  cbn [NilZero.string_of_uint NilEmpty.string_of_uint String.length];
  rewrite string_of_uint_length; split; [reflexivity|];
  cbn [Pos.of_uint] in Hof; injection Hof as <-;
  destruct (of_uint_acc_bounds u k) as [Hlo Hhi];
  rewrite Nat2Z.inj_succ, Z.pow_succ_r by lia; lia.

(** A positive number of [d + 1] digits lies between [10 ^ d] and
    [10 ^ (d + 1)]. *)
Lemma digits_pos_bounds (p : positive) :
  exists d,
    String.length (digits (Z.pos p)) = S d /\
    10 ^ Z.of_nat d <= Z.pos p < 10 ^ Z.of_nat (S d).
Proof.
  change (digits (Z.pos p)) with (NilZero.string_of_uint (Pos.to_uint p)).
  pose proof (Unsigned.of_to p) as Hof.
  pose proof (to_uint_unorm p) as Hn.
  pose proof (Unsigned.to_uint_nonzero p) as Hz.
  destruct (Pos.to_uint p) as [|u|u|u|u|u|u|u|u|u|u].
  - discriminate.
  - exfalso. unfold Decimal.unorm in Hn. cbn [Decimal.nzhead] in Hn.
    destruct (Decimal.nzhead u) eqn:E; try discriminate.
    + apply Hz. congruence.
    + exact (nzhead_not_D0 _ _ E).
  - leading_digit u Hof 1%positive.
  - leading_digit u Hof 2%positive.
  - leading_digit u Hof 3%positive.
  - leading_digit u Hof 4%positive.
  - leading_digit u Hof 5%positive.
  - leading_digit u Hof 6%positive.
  - leading_digit u Hof 7%positive.
  - leading_digit u Hof 8%positive.
  - leading_digit u Hof 9%positive.
Qed.

Lemma str_limit_pos : 0 < str_limit.
Proof. unfold str_limit. apply Z.pow_pos_nonneg; lia. Qed.

(** [str] accepts the numbers from 0 to below [str_limit] ... *)
Lemma str_ok (z : Z) : 0 <= z < str_limit -> str z = inr (digits z).
Proof.
  intros [H0 Hlt]. destruct z as [|p|p]; [reflexivity | | lia].
  unfold str. cbv zeta. change (Z.pos p <? 0) with false.
  destruct (digits_pos_bounds p) as [d [-> [Hlo Hhi]]].
  rewrite Nat.sub_0_r.
  destruct (Nat.ltb_spec int_max_str_digits (S d)) as [Hd|Hd]; [|reflexivity].
  exfalso. unfold str_limit in Hlt.
  assert (10 ^ Z.of_nat int_max_str_digits <= 10 ^ Z.of_nat d)
    by (apply Z.pow_le_mono_r; lia).
  lia.
Qed.

(** ... and refuses the numbers from [str_limit] on. *)
Lemma str_raise (z : Z) : str_limit <= z -> str z = inl ValueError.
Proof.
  intros Hge. pose proof str_limit_pos as Hpos.
  destruct z as [|p|p]; [lia | | lia].
  unfold str. cbv zeta. change (Z.pos p <? 0) with false.
  destruct (digits_pos_bounds p) as [d [-> [Hlo Hhi]]].
  rewrite Nat.sub_0_r.
  destruct (Nat.ltb_spec int_max_str_digits (S d)) as [Hd|Hd]; [reflexivity|].
  exfalso. unfold str_limit in Hge.
  assert (10 ^ Z.of_nat (S d) <= 10 ^ Z.of_nat int_max_str_digits)
    by (apply Z.pow_le_mono_r; lia).
  lia.
Qed.

(** The limit is far above the small numbers met in examples. *)
Lemma str_limit_ge_1000 : 1000 <= str_limit.
Proof.
  unfold str_limit. change 1000 with (10 ^ 3).
  apply Z.pow_le_mono_r; [lia|].
  change 3 with (Z.of_nat 3). apply Nat2Z.inj_le.
  unfold int_max_str_digits. apply Nat.leb_le. reflexivity.
Qed.

End DigitCount.

(** ** The two [print] calls and the loop body *)

Section Body.

Lemma print_term_ok (x : Z) (w : stdout) :
  0 <= x < str_limit -> print (print_term x) w = Return (w ++ [print_term x]).
Proof.
  intros Hx. unfold print. cbn [args print_term write_args].
  rewrite (str_ok x Hx). reflexivity.
Qed.

Lemma print_term_raise (x : Z) (w : stdout) :
  str_limit <= x -> print (print_term x) w = Raise ValueError w.
Proof.
  intros Hx. unfold print. cbn [args print_term write_args].
  rewrite (str_raise x Hx). reflexivity.
Qed.

Lemma print_newline_ok (w : stdout) :
  print print_newline w = Return (w ++ [print_newline]).
Proof. reflexivity. Qed.

(** The body succeeds when [a] is small enough for [str] ... *)
Lemma body_ok (s : State) : 0 <= a s < str_limit -> body s = Return (advance s).
Proof. intros Ha. unfold body. rewrite (print_term_ok _ _ Ha). reflexivity. Qed.

(** ... and otherwise raises, having written nothing more. *)
Lemma body_raise (s : State) : str_limit <= a s -> body s = Raise ValueError (out s).
Proof. intros Ha. unfold body. rewrite (print_term_raise _ _ Ha). reflexivity. Qed.

(** Whenever the body completes, it has done what [advance] does. *)
Lemma body_Return (s s' : State) : body s = Return s' -> s' = advance s.
Proof.
  unfold body, print. cbn [args print_term write_args].
  destruct (str (a s)) as [e|t]; cbn; intros H; inversion H. reflexivity.
Qed.

(** What was written before a call does not matter to it. *)
Lemma print_frame (c : print_call) (w w' : stdout) :
  print c (w ++ w') = frame (app w) w (print c w').
Proof.
  unfold print. destruct (write_args (args c)) as [p [e|]];
    destruct p; cbn; rewrite <- ?app_assoc; reflexivity.
Qed.

Lemma body_frame (w : stdout) (s : State) :
  body (frame_state w s) = frame (frame_state w) w (body s).
Proof.
  unfold body. cbn [a b out frame_state]. rewrite print_frame.
  destruct (print (print_term (a s)) (out s)); reflexivity.
Qed.

Lemma init_frame (w : stdout) : init w = frame_state w (init []).
Proof. unfold init, frame_state. cbn. rewrite app_nil_r. reflexivity. Qed.

End Body.

(** ** The loop *)

Section Loop.

Variable n : Z.

Lemma while_loop_frame (fuel : nat) (w : stdout) (s : State) :
  while_loop fuel n (frame_state w s) =
  option_map (frame (frame_state w) w) (while_loop fuel n s).
Proof.
  revert s. induction fuel as [|fuel IH]; intros s; [reflexivity|].
  cbn [while_loop]. rewrite body_frame.
  change (cond n (frame_state w s)) with (cond n s).
  destruct (cond n s); [|reflexivity].
  destruct (body s) as [s'|e w']; cbn [frame]; [apply IH | reflexivity].
Qed.

(** More fuel never changes a result. *)
Lemma while_loop_fuel_mono (fuel fuel' : nat) (s : State) (o : outcome State) :
  while_loop fuel n s = Some o -> (fuel <= fuel')%nat ->
  while_loop fuel' n s = Some o.
Proof.
  revert fuel' s. induction fuel as [|fuel IH]; intros fuel' s H Hle.
  - discriminate.
  - destruct fuel' as [|fuel']; [lia|]. cbn [while_loop] in *.
    destruct (cond n s); [|exact H].
    destruct (body s); [apply IH; [exact H | lia] | exact H].
Qed.

(** A loop whose test holds and whose body succeeds for the first [k]
    states, and whose test fails at the next, runs the body [k] times
    and exits. *)
Lemma while_loop_return (k fuel : nat) (s : State) :
  (forall i, (i < k)%nat ->
     cond n (Nat.iter i advance s) = true /\
     body (Nat.iter i advance s) = Return (advance (Nat.iter i advance s))) ->
  cond n (Nat.iter k advance s) = false ->
  (k < fuel)%nat ->
  while_loop fuel n s = Some (Return (Nat.iter k advance s)).
Proof.
  revert fuel s. induction k as [|k IH]; intros fuel s Hlt Hge Hfuel.
  - destruct fuel as [|fuel]; [lia|]. cbn in *. now rewrite Hge.
  - destruct fuel as [|fuel]; [lia|]. cbn [while_loop].
    destruct (Hlt O ltac:(lia)) as [Hc Hb]. cbn in Hc, Hb. rewrite Hc, Hb.
    rewrite Nat.iter_succ, <- Nat.iter_swap. apply IH.
    + intros i Hi. rewrite Nat.iter_swap. apply (Hlt (S i)). lia.
    + rewrite Nat.iter_swap. exact Hge.
    + lia.
Qed.

(** If instead the body raises in the next state, the loop is left by
    that exception. *)
Lemma while_loop_raise (k fuel : nat) (s : State) (e : exn) (w' : stdout) :
  (forall i, (i < k)%nat ->
     cond n (Nat.iter i advance s) = true /\
     body (Nat.iter i advance s) = Return (advance (Nat.iter i advance s))) ->
  cond n (Nat.iter k advance s) = true ->
  body (Nat.iter k advance s) = Raise e w' ->
  (k < fuel)%nat ->
  while_loop fuel n s = Some (Raise e w').
Proof.
  revert fuel s. induction k as [|k IH]; intros fuel s Hlt Hc Hb Hfuel.
  - destruct fuel as [|fuel]; [lia|]. cbn in *. now rewrite Hc, Hb.
  - destruct fuel as [|fuel]; [lia|]. cbn [while_loop].
    destruct (Hlt O ltac:(lia)) as [Hc0 Hb0]. cbn in Hc0, Hb0. rewrite Hc0, Hb0.
    apply IH.
    + intros i Hi. rewrite Nat.iter_swap. apply (Hlt (S i)). lia.
    + rewrite Nat.iter_swap. exact Hc.
    + rewrite Nat.iter_swap. exact Hb.
    + lia.
Qed.

(** With no more fuel than completed rounds the loop is cut short. *)
Lemma while_loop_short (k fuel : nat) (s : State) :
  (forall i, (i < k)%nat ->
     cond n (Nat.iter i advance s) = true /\
     body (Nat.iter i advance s) = Return (advance (Nat.iter i advance s))) ->
  (fuel <= k)%nat ->
  while_loop fuel n s = None.
Proof.
  revert k s. induction fuel as [|fuel IH]; intros k s Hlt Hfuel.
  - reflexivity.
  - destruct k as [|k]; [lia|]. cbn [while_loop].
    destruct (Hlt O ltac:(lia)) as [Hc0 Hb0]. cbn in Hc0, Hb0. rewrite Hc0, Hb0.
    apply (IH k); [|lia].
    intros i Hi. rewrite Nat.iter_swap. apply (Hlt (S i)). lia.
Qed.

(** The state after [k] completed rounds. *)
Lemma iter_advance (k : nat) (w : stdout) :
  Nat.iter k advance (init w) =
  {| a := fib k; b := fib (S k); out := w ++ map print_term (fibs k) |}.
Proof.
  induction k as [|k IH].
  - cbn. unfold init. rewrite app_nil_r. reflexivity.
  - rewrite Nat.iter_succ, IH. unfold advance. cbn [a b out].
    rewrite fibs_S, map_app, <- app_assoc, fib_SS. reflexivity.
Qed.

Lemma Reach_iter (w : stdout) (s : State) :
  Reach n w s ->
  exists k, s = Nat.iter k advance (init w) /\ forall i, (i < k)%nat -> fib i < n.
Proof.
  induction 1 as [|s s' _ [k [Hs Hlt]] Hc Hb].
  - exists O. split; [reflexivity | intros i Hi; lia].
  - exists (S k). apply body_Return in Hb.
    split; [rewrite Nat.iter_succ; congruence|].
    intros i Hi. destruct (Nat.eq_dec i k) as [->|Hne]; [|apply Hlt; lia].
    subst s. rewrite iter_advance in Hc. unfold cond in Hc. cbn in Hc.
    apply Z.ltb_lt. exact Hc.
Qed.

End Loop.

(** ** What one call does *)

Section Run.

Lemma fibonacci_frame (fuel : nat) (n : Z) (w : stdout) :
  fibonacci fuel n w = option_map (frame (app w) w) (fibonacci fuel n []).
Proof.
  unfold fibonacci. rewrite (init_frame w), while_loop_frame.
  destruct (while_loop fuel n (init [])) as [[s|e w']|]; cbn [option_map frame];
    try reflexivity.
  cbn [out frame_state]. rewrite print_frame. reflexivity.
Qed.

(** The loop of [fibonacci(n)] completes [k] rounds and prints the first
    [k] terms, where [fib k] is the first term that is not below [n] or
    that [str] refuses.  In the first case the loop exits and the call
    returns; in the second the call raises [ValueError]. *)
Lemma fibonacci_run (n : Z) :
  exists k r,
    (forall i, (i < k)%nat <-> fib i < n /\ fib i < str_limit) /\
    (r = None <-> forall j, fib j < n -> fib j < str_limit) /\
    (r = None /\ n <= fib k \/
     r = Some ValueError /\ fib k < n /\ str_limit <= fib k) /\
    (forall w fuel, (k < fuel)%nat ->
       while_loop fuel n (init w) =
       Some (match r with
             | None => Return (Nat.iter k advance (init w))
             | Some e => Raise e (w ++ map print_term (fibs k))
             end)) /\
    (forall w fuel, (fuel <= k)%nat -> while_loop fuel n (init w) = None) /\
    (forall w fuel, (k < fuel)%nat ->
       fibonacci fuel n w = Some (finish r (w ++ appended r (fibs k)))).
Proof.
  destruct (first_not_below n) as [kn [Hn Hltn]].
  destruct (first_not_below str_limit) as [K [HK HltK]].
  pose proof (first_not_below_iff n kn Hn Hltn) as Hin.
  pose proof (first_not_below_iff str_limit K HK HltK) as HiK.
  destruct (Nat.le_gt_cases kn K) as [Hle|Hgt].
  - (* the test fails first *)
    assert (Hstep : forall w i, (i < kn)%nat ->
              cond n (Nat.iter i advance (init w)) = true /\
              body (Nat.iter i advance (init w)) =
              Return (advance (Nat.iter i advance (init w)))).
    { intros w i Hi. split.
      - rewrite iter_advance. apply Z.ltb_lt. cbn [a]. now apply Hltn.
      - apply body_ok. rewrite iter_advance. cbn [a].
        split; [apply fib_nonneg | apply HltK; lia]. }
    assert (Hrun : forall w fuel, (kn < fuel)%nat ->
              while_loop fuel n (init w) = Some (Return (Nat.iter kn advance (init w)))).
    { intros w fuel Hfuel. apply while_loop_return; auto.
      rewrite iter_advance. apply Z.ltb_ge. exact Hn. }
    exists kn, None. repeat split.
    + now apply Hin.
    + apply HiK. lia.
    + intros [H1 _]. now apply Hin.
    + intros _ j Hj. apply HiK. apply Hin in Hj. lia.
    + left. split; [reflexivity | exact Hn].
    + exact Hrun.
    + intros w fuel Hfuel. eapply while_loop_short; [apply Hstep | exact Hfuel].
    + intros w fuel Hfuel. unfold fibonacci.
      rewrite (Hrun w fuel Hfuel), iter_advance. cbn [out finish appended].
      rewrite print_newline_ok. unfold calls_of. rewrite <- app_assoc. reflexivity.
  - (* [str] refuses first *)
    assert (Hstep : forall w i, (i < K)%nat ->
              cond n (Nat.iter i advance (init w)) = true /\
              body (Nat.iter i advance (init w)) =
              Return (advance (Nat.iter i advance (init w)))).
    { intros w i Hi. split.
      - rewrite iter_advance. apply Z.ltb_lt. cbn [a]. apply Hltn. lia.
      - apply body_ok. rewrite iter_advance. cbn [a].
        split; [apply fib_nonneg | now apply HltK]. }
    assert (Hrun : forall w fuel, (K < fuel)%nat ->
              while_loop fuel n (init w) =
              Some (Raise ValueError (w ++ map print_term (fibs K)))).
    { intros w fuel Hfuel. apply (while_loop_raise n K); auto.
      - rewrite iter_advance. apply Z.ltb_lt. cbn [a]. now apply Hltn.
      - rewrite body_raise; rewrite iter_advance; [reflexivity | exact HK]. }
    exists K, (Some ValueError). repeat split.
    + apply Hin. lia.
    + now apply HiK.
    + intros [_ H2]. now apply HiK.
    + discriminate.
    + intros H. pose proof (H K (Hltn K Hgt)). lia.
    + right. repeat split; [now apply Hltn | exact HK].
    + exact Hrun.
    + intros w fuel Hfuel. eapply while_loop_short; [apply Hstep | exact Hfuel].
    + intros w fuel Hfuel. unfold fibonacci. rewrite (Hrun w fuel Hfuel). reflexivity.
Qed.

Lemma fibonacci_fuel_mono (fuel fuel' : nat) (n : Z) (w : stdout) (o : outcome stdout) :
  fibonacci fuel n w = Some o -> (fuel <= fuel')%nat ->
  fibonacci fuel' n w = Some o.
Proof.
  unfold fibonacci. intros H Hle.
  destruct (while_loop fuel n (init w)) as [o'|] eqn:E; [|discriminate].
  now rewrite (while_loop_fuel_mono n fuel fuel' _ _ E Hle).
Qed.

(** A call ends the same way whatever the fuel. *)
Lemma fibonacci_functional (f1 f2 : nat) (n : Z) (w : stdout) (o1 o2 : outcome stdout) :
  fibonacci f1 n w = Some o1 -> fibonacci f2 n w = Some o2 -> o1 = o2.
Proof.
  intros H1 H2.
  apply (fibonacci_fuel_mono _ (Nat.max f1 f2)) in H1; [|lia].
  apply (fibonacci_fuel_mono _ (Nat.max f1 f2)) in H2; [|lia].
  congruence.
Qed.

(** A call that was found to return on empty standard output writes the
    same whatever was written before. *)
Lemma writes_from_run (fuel : nat) (n : Z) (d : stdout) :
  fibonacci fuel n [] = Some (Return d) -> writes n d.
Proof.
  intros H w. exists fuel. rewrite fibonacci_frame, H. reflexivity.
Qed.

End Run.

(** ** Bounds that are not integers *)

Section RationalBound.

Variable q : Q.

(** Against an integer, a rational bound acts as its ceiling. *)
Lemma cond_num_ceiling (s : State) : cond_num q s = cond (Qceiling q) s.
Proof.
  unfold cond_num, cond.
  destruct (Z.ltb_spec (a s) (Qceiling q)) as [Hlt|Hge].
  - apply negb_true_iff. apply not_true_is_false. intros H.
    apply Qle_bool_iff in H.
    assert (Hle : (inject_Z (a s) <= inject_Z (Qceiling q - 1))%Q)
      by (rewrite <- Zle_Qle; lia).
    pose proof (Qceiling_lt q) as Hc.
    apply (Qlt_irrefl q).
    eapply Qle_lt_trans; [exact H|]. eapply Qle_lt_trans; [exact Hle | exact Hc].
  - apply negb_false_iff. apply Qle_bool_iff.
    eapply Qle_trans; [apply Qle_ceiling|]. rewrite <- Zle_Qle. exact Hge.
Qed.

Lemma while_loop_num_ceiling (fuel : nat) (s : State) :
  while_loop_num fuel q s = while_loop fuel (Qceiling q) s.
Proof.
  revert s. induction fuel as [|fuel IH]; intros s; cbn [while_loop_num while_loop].
  - reflexivity.
  - rewrite cond_num_ceiling. destruct (cond (Qceiling q) s); [|reflexivity].
    destruct (body s); [apply IH | reflexivity].
Qed.

(** A call with the bound [q] does what the call with the integer bound
    [Qceiling q] does. *)
Lemma fibonacci_num_ceiling (fuel : nat) (w : stdout) :
  fibonacci_num fuel q w = fibonacci fuel (Qceiling q) w.
Proof.
  unfold fibonacci_num, fibonacci. rewrite while_loop_num_ceiling. reflexivity.
Qed.

(** An integer is below a rational bound exactly when it is below the
    bound's ceiling. *)
Lemma below_ceiling (t : Z) : (inject_Z t < q)%Q <-> t < Qceiling q.
Proof.
  pose proof (cond_num_ceiling {| a := t; b := 0; out := [] |}) as E.
  unfold cond_num, cond in E. cbn [a] in E. split; intros H.
  - destruct (Z.ltb_spec t (Qceiling q)) as [Hlt|Hge]; [exact Hlt|].
    apply negb_false_iff, Qle_bool_iff in E.
    exfalso. exact (Qlt_not_le _ _ H E).
  - apply Z.ltb_lt in H. rewrite H in E. apply negb_true_iff in E.
    apply Qnot_le_lt. intros Hle. apply Qle_bool_iff in Hle. congruence.
Qed.

End RationalBound.

Section Bounds.

Lemma call_ceiling (fuel : nat) (bd : Bound) (w : stdout) :
  call fuel bd w = fibonacci fuel (ceiling bd) w.
Proof. destruct bd as [n|q]; [reflexivity | apply fibonacci_num_ceiling]. Qed.

Lemma loop_ceiling (fuel : nat) (bd : Bound) (s : State) :
  loop fuel bd s = while_loop fuel (ceiling bd) s.
Proof. destruct bd as [n|q]; [reflexivity | apply while_loop_num_ceiling]. Qed.

Lemma below_ceiling_iff (t : Z) (bd : Bound) : below t bd <-> t < ceiling bd.
Proof. destruct bd as [n|q]; [reflexivity | apply below_ceiling]. Qed.

Lemma ceiling_value (bd : Bound) : Qceiling (value bd) = ceiling bd.
Proof. destruct bd as [n|q]; [apply Qceiling_Z | reflexivity]. Qed.

Lemma ceiling_mono (bd1 bd2 : Bound) :
  (value bd1 <= value bd2)%Q -> ceiling bd1 <= ceiling bd2.
Proof.
  intros H. rewrite <- !ceiling_value. now apply Qceiling_resp_le.
Qed.

Lemma ceiling_le (bd : Bound) (m : Z) :
  (value bd <= inject_Z m)%Q -> ceiling bd <= m.
Proof. intros H. exact (ceiling_mono bd (Integer m) H). Qed.

(** How a call with any bound ends, and the terms it emits: the
    Fibonacci numbers that are below the bound and that [str] accepts.
    It returns exactly when [str] accepts all those below the bound. *)
Lemma call_run (bd : Bound) :
  exists k r,
    (forall i, (i < k)%nat <-> below (fib i) bd /\ fib i < str_limit) /\
    (r = None <-> forall j, below (fib j) bd -> fib j < str_limit) /\
    (r = None \/ r = Some ValueError) /\
    (forall w fuel, (k < fuel)%nat ->
       call fuel bd w = Some (finish r (w ++ appended r (fibs k)))) /\
    finishes bd r (appended r (fibs k)).
Proof.
  destruct (fibonacci_run (ceiling bd)) as [k [r (Hk & Hr & Hc & _ & _ & Hrun)]].
  exists k, r. repeat split.
  - apply below_ceiling_iff. now apply Hk.
  - now apply Hk.
  - intros [H1 H2]. apply Hk. split; [now apply below_ceiling_iff | exact H2].
  - intros Hn j Hj. apply (proj1 Hr Hn). now apply below_ceiling_iff.
  - intros H. apply Hr. intros j Hj. apply H. now apply below_ceiling_iff.
  - destruct Hc as [[-> _]|[-> _]]; auto.
  - intros w fuel Hfuel. rewrite call_ceiling. now apply Hrun.
  - intros w. exists (S k). rewrite call_ceiling. apply Hrun. lia.
Qed.

(** A bound up to [str_limit] has only terms below it that [str]
    accepts. *)
Lemma small_bound (bd : Bound) :
  (value bd <= inject_Z str_limit)%Q ->
  forall j, below (fib j) bd -> fib j < str_limit.
Proof.
  intros H j Hj. apply below_ceiling_iff in Hj.
  pose proof (ceiling_le bd str_limit H). lia.
Qed.

End Bounds.

(** ** The characters written *)

Section Characters.

Lemma chars_app (s1 s2 : string) : chars (s1 ++ s2) = chars s1 ++ chars s2.
Proof.
  unfold chars. induction s1 as [|c s1 IH]; cbn; [reflexivity | now rewrite IH].
Qed.

Lemma string_of_uint_digits (u : Decimal.uint) :
  Forall (fun c => is_digit c = true) (chars (NilEmpty.string_of_uint u)).
Proof.
  induction u; cbn; constructor; try reflexivity; assumption.
Qed.

(** The numeral of a number that is not negative has digits only. *)
Lemma digits_digits (z : Z) :
  0 <= z -> Forall (fun c => is_digit c = true) (chars (digits z)).
Proof.
  intros Hz. unfold digits. destruct z as [|p|p]; [| |lia].
  - cbn. constructor; [reflexivity | constructor].
  - change (Forall (fun c => is_digit c = true)
              (chars (NilZero.string_of_uint (Pos.to_uint p)))).
    generalize (Pos.to_uint p). intros u.
    destruct u as [|u|u|u|u|u|u|u|u|u|u];
      [cbn; constructor; [reflexivity | constructor] | ..];
      match goal with
      | |- Forall _ (chars (NilZero.string_of_uint ?v)) =>
          exact (string_of_uint_digits v)
      end.
Qed.

Lemma spaced_chars (ts : list Z) :
  Forall (fun t => 0 <= t) ts ->
  Forall (fun c => digit_or_space c = true) (chars (spaced ts)).
Proof.
  induction 1 as [|t ts Ht _ IH].
  - constructor.
  - rewrite spaced_cons, chars_app. apply Forall_app. split.
    + eapply Forall_impl; [|exact (digits_digits t Ht)].
      intros c Hc. unfold digit_or_space. now rewrite Hc.
    + cbn. constructor; [reflexivity | exact IH].
Qed.

Lemma fibs_nonneg (k : nat) : Forall (fun t => 0 <= t) (fibs k).
Proof.
  apply Forall_forall. intros t Ht.
  destruct (fibs_In _ _ Ht) as [i [_ ->]]. apply fib_nonneg.
Qed.

Lemma emitted_appended (r : option exn) (ts : list Z) :
  emitted (appended r ts) = ts.
Proof.
  destruct r; [apply emitted_print_terms | apply emitted_calls_of].
Qed.

Lemma text_appended (r : option exn) (ts : list Z) :
  text (appended r ts) =
  match r with
  | None => (spaced ts ++ nl)%string
  | Some _ => spaced ts
  end.
Proof.
  destruct r; [apply text_print_terms | apply text_calls_of].
Qed.

End Characters.

(** ** Bounds too large for [str] *)

Section LargeBound.

(** The first term [str] refuses is less than twice the limit. *)
Lemma refused_term_below (n : Z) :
  2 * str_limit <= n -> exists j, fib j < n /\ str_limit <= fib j.
Proof.
  intros Hn. pose proof str_limit_ge_1000 as HL.
  destruct (first_not_below str_limit) as [K [HK HltK]].
  exists K. split; [|exact HK].
  destruct K as [|[|K]];
    [change (fib 0) with 0 in HK; lia | change (fib 1) with 1 in HK; lia |].
  pose proof (fib_S_le_double K). pose proof (HltK (S K) ltac:(lia)). lia.
Qed.

(** A call with a bound from twice the limit on raises [ValueError]
    after printing the terms [str] accepts. *)
Lemma large_bound_raises (n : Z) :
  2 * str_limit <= n ->
  exists k,
    (forall i, (i < k)%nat <-> fib i < str_limit) /\
    fib k < n /\
    forall w fuel, (k < fuel)%nat ->
      fibonacci fuel n w = Some (Raise ValueError (w ++ map print_term (fibs k))).
Proof.
  intros Hn.
  destruct (fibonacci_run n) as [k [r (Hk & Hr & Hc & _ & _ & Hrun)]].
  destruct (refused_term_below n Hn) as [j [Hj1 Hj2]].
  destruct Hc as [[-> _]|[-> [Hkn HkL]]].
  - pose proof (proj1 Hr eq_refl j Hj1). lia.
  - exists k. repeat split.
    + now apply Hk.
    + intros Hi. apply Hk. split; [|exact Hi].
      destruct (Nat.lt_ge_cases i k) as [H|H]; [now apply Hk|].
      pose proof (fib_mono k i H). lia.
    + exact Hkn.
    + exact Hrun.
Qed.

End LargeBound.

(** ** The claims *)

(** C1, as stated, fails twice.  For the bound 2 the text ends in a
    space before the newline, so it is not the space-joined terms
    followed by a newline.  And for the bound [10 * str_limit] (1
    followed by 4301 zeros) [print] raises [ValueError] at the first
    term of 4301 digits: the call does not return and no newline is
    written. *)
Lemma C1_space_joined_counterexample :
  (exists fuel w',
     fibonacci fuel 2 [] = Some (Return w') /\
     emitted w' = [0; 1; 1] /\
     text w' <> (space_joined (emitted w') ++ nl)%string) /\
  (exists fuel w',
     fibonacci fuel (10 * str_limit) [] = Some (Raise ValueError w') /\
     Forall (fun c => digit_or_space c = true) (chars (text w'))).
Proof.
  split.
  - exists 4%nat, (calls_of [0; 1; 1]). repeat split. discriminate.
  - pose proof str_limit_pos as HL.
    destruct (large_bound_raises (10 * str_limit) ltac:(lia)) as [k (_ & _ & Hrun)].
    exists (S k), ([] ++ map print_term (fibs k)). split; [apply Hrun; lia|].
    cbn [app]. rewrite text_print_terms. apply spaced_chars, fibs_nonneg.
Qed.

(** C1 (amended): every emitted term is followed by one space, the last
    one too.  For every bound, integer or not, such that all Fibonacci
    numbers below it have at most 4300 digits (that is, are below
    [str_limit]; so for every bound up to [str_limit]) the call returns
    and its text is the emitted terms, each followed by a space, then a
    single newline: a lone newline when nothing was emitted, otherwise
    the space-joined terms, one further space and the newline.  For any
    other bound the call raises [ValueError] and its text is the emitted
    terms, each followed by a space, without a newline. *)
Theorem C1_output_format (bd : Bound) :
  exists r d,
    finishes bd r d /\
    (r = None <-> forall j, below (fib j) bd -> fib j < str_limit) /\
    ((value bd <= inject_Z str_limit)%Q -> r = None) /\
    match r with
    | None =>
        text d = (spaced (emitted d) ++ nl)%string /\
        (emitted d = [] -> text d = nl) /\
        (emitted d <> [] ->
         text d = (space_joined (emitted d) ++ " " ++ nl)%string)
    | Some e => e = ValueError /\ text d = spaced (emitted d)
    end.
Proof.
  destruct (call_run bd) as [k [r (_ & Hr & Hc & _ & Hf)]].
  exists r, (appended r (fibs k)).
  rewrite emitted_appended, text_appended.
  split; [exact Hf|]. split; [exact Hr|].
  split; [intros H; apply Hr; now apply small_bound|].
  destruct Hc as [-> | ->].
  - repeat split.
    + intros ->. reflexivity.
    + intros Hne. rewrite (spaced_space_joined _ Hne). apply append_assoc.
  - split; reflexivity.
Qed.

(** C2, as stated, fails: the program's text has a space between 89 and
    the newline. *)
Lemma C2_bound_100_counterexample :
  exists fuel w',
    main fuel [] = Some (Return w') /\
    text w' <> ("0 1 1 2 3 5 8 13 21 34 55 89" ++ nl)%string.
Proof.
  exists 13%nat, (calls_of [0; 1; 1; 2; 3; 5; 8; 13; 21; 34; 55; 89]).
  split; [reflexivity | discriminate].
Qed.

(** C2 (amended): [fibonacci(100)], and so the program run as a script,
    prints the twelve terms 0 .. 89 and writes exactly
    "0 1 1 2 3 5 8 13 21 34 55 89 " (with the space after 89) followed by
    a newline. *)
Theorem C2_bound_100 :
  exists d,
    writes 100 d /\
    (forall w, exists fuel, main fuel w = Some (Return (w ++ d))) /\
    emitted d = [0; 1; 1; 2; 3; 5; 8; 13; 21; 34; 55; 89] /\
    text d = ("0 1 1 2 3 5 8 13 21 34 55 89 " ++ nl)%string.
Proof.
  exists (calls_of [0; 1; 1; 2; 3; 5; 8; 13; 21; 34; 55; 89]).
  assert (H : writes 100 (calls_of [0; 1; 1; 2; 3; 5; 8; 13; 21; 34; 55; 89]))
    by (apply (writes_from_run 13); reflexivity).
  repeat split; try exact H.
Qed.

(** C3: for every bound [n <= 0] no number is emitted and the text is
    exactly one newline. *)
Theorem C3_nonpositive_bound (n : Z) :
  n <= 0 ->
  exists d, writes n d /\ emitted d = [] /\ text d = nl.
Proof.
  intros Hn. exists [print_newline]. repeat split.
  intros w. exists 1%nat. unfold fibonacci. cbn [while_loop].
  unfold cond. cbn [a init].
  destruct (Z.ltb_spec 0 n); [lia | reflexivity].
Qed.

Lemma C3_nonpositive_bound_witness :
  -3 <= 0 /\ exists d, writes (-3) d /\ emitted d = [] /\ text d = nl.
Proof. split; [lia | apply (C3_nonpositive_bound (-3)); lia]. Defined.

(** C4, as stated, fails: for the bound 1 the text is three characters,
    not two. *)
Lemma C4_bound_1_counterexample :
  exists fuel w',
    fibonacci fuel 1 [] = Some (Return w') /\ text w' <> ("0" ++ nl)%string.
Proof.
  exists 2%nat, (calls_of [0]). split; [reflexivity | discriminate].
Qed.

(** C4 (amended): for the bound 1 the single term 0 is emitted and the
    text is exactly the three characters "0", space, newline. *)
Theorem C4_bound_1 :
  exists d, writes 1 d /\ emitted d = [0] /\ text d = ("0 " ++ nl)%string.
Proof.
  exists (calls_of [0]). repeat split.
  apply (writes_from_run 2). reflexivity.
Qed.

(** C5, as stated, fails for a bound above the numbers [str] accepts:
    for the bound [10 * str_limit] the call raises [ValueError], and a
    Fibonacci number below the bound has not been emitted. *)
Lemma C5_all_terms_below_counterexample :
  exists fuel w' j,
    fibonacci fuel (10 * str_limit) [] = Some (Raise ValueError w') /\
    fib j < 10 * str_limit /\
    ~ In (fib j) (emitted w').
Proof.
  pose proof str_limit_pos as HL.
  destruct (large_bound_raises (10 * str_limit) ltac:(lia)) as [k (Hk & Hlt & Hrun)].
  exists (S k), ([] ++ map print_term (fibs k)), k.
  split; [apply Hrun; lia|]. split; [exact Hlt|].
  cbn [app]. rewrite emitted_print_terms. intros Hin.
  destruct (fibs_In _ _ Hin) as [i [Hi E]].
  apply Hk in Hi. rewrite <- E in Hi. apply Hk in Hi. lia.
Qed.

(** C5 (amended): every term emitted for a bound, integer or not, is
    below the bound; the terms obey the recurrence, 1 standing in for
    the term before the initial 0; and they are exactly the Fibonacci
    numbers 0, 1, 1, 2, 3, 5, ... that are below the bound and have at
    most 4300 digits (are below [str_limit]).  The call returns exactly
    when these are all the Fibonacci numbers below the bound, as for
    every bound up to [str_limit]; otherwise it raises [ValueError]. *)
Theorem C5_emitted_terms (bd : Bound) :
  exists r d,
    finishes bd r d /\
    Forall (fun t => below t bd) (emitted d) /\
    recurrence_from 1 (emitted d) /\
    (exists k, emitted d = fibs k /\
       forall j, (j < k)%nat <-> below (fib j) bd /\ fib j < str_limit) /\
    (r = None <-> forall j, below (fib j) bd -> fib j < str_limit) /\
    ((value bd <= inject_Z str_limit)%Q -> r = None) /\
    (r = None \/ r = Some ValueError).
Proof.
  destruct (call_run bd) as [k [r (Hk & Hr & Hc & _ & Hf)]].
  exists r, (appended r (fibs k)). rewrite emitted_appended.
  split; [exact Hf|]. split.
  { apply Forall_forall. intros t Ht.
    destruct (fibs_In _ _ Ht) as [i [Hi ->]]. now apply Hk. }
  split; [apply fibs_recurrence|].
  split; [exists k; split; [reflexivity | exact Hk]|].
  split; [exact Hr|].
  split; [intros H; apply Hr; now apply small_bound | exact Hc].
Qed.

(** C6, as stated, fails: after the first round of the loop for the bound
    2, [a] is 1 while the value emitted last is 0. *)
Lemma C6_last_emitted_counterexample :
  exists s,
    Reach 2 [] s /\
    emitted (out s) = [0] /\ a s = 1 /\
    a s <> last (emitted (out s)) 0.
Proof.
  exists (advance (init [])). repeat split.
  - apply (Reach_step 2 [] (init [])); [apply Reach_init | reflexivity | reflexivity].
  - discriminate.
Qed.

(** C6 (amended): at the head of the loop [a] holds the term to be
    emitted next, that is the successor of the value emitted last (the
    initial 0 before any emission), and [b] holds [a]'s successor under
    next = current + previous.  This holds in the initial state (0, 1),
    is preserved by the body's update [(a, b) = (b, a + b)], and so holds
    in every state the loop reaches. *)
Theorem C6_accumulator_invariant (n : Z) (w : stdout) :
  acc_inv w (init w) /\
  (forall s s', acc_inv w s -> body s = Return s' -> acc_inv w s') /\
  (forall s, Reach n w s -> acc_inv w s).
Proof.
  assert (H0 : acc_inv w (init w)).
  { exists O. cbn. rewrite app_nil_r. repeat split. }
  assert (Hstep : forall s s', acc_inv w s -> body s = Return s' -> acc_inv w s').
  { intros s s' [k (Ho & Ha & Hb & _)] Hbody.
    apply body_Return in Hbody. subst s'.
    exists (S k). unfold advance. cbn [a b out].
    rewrite Ho, Ha, Hb, fibs_last, fibs_S, map_app, <- app_assoc, fib_SS.
    repeat split. lia. }
  repeat split; try assumption.
  induction 1; eauto.
Qed.

(** C7: for bounds [n1 <= n2], integers or not, both calls end and the
    terms emitted for [n1] are an initial segment of the terms emitted
    for [n2]. *)
Theorem C7_monotone (bd1 bd2 : Bound) :
  (value bd1 <= value bd2)%Q ->
  exists r1 d1 r2 d2,
    finishes bd1 r1 d1 /\ finishes bd2 r2 d2 /\
    Prefix (emitted d1) (emitted d2).
Proof.
  intros Hle. apply ceiling_mono in Hle.
  destruct (call_run bd1) as [k1 [r1 (Hk1 & _ & _ & _ & Hf1)]].
  destruct (call_run bd2) as [k2 [r2 (Hk2 & _ & _ & _ & Hf2)]].
  exists r1, (appended r1 (fibs k1)), r2, (appended r2 (fibs k2)).
  rewrite !emitted_appended. repeat split; try assumption.
  apply fibs_prefix.
  destruct (Nat.le_gt_cases k1 k2) as [H|H]; [exact H|].
  apply Hk1 in H. destruct H as [Hb HL].
  assert (Hk : (k2 < k2)%nat); [|lia].
  apply Hk2. split; [|exact HL].
  apply below_ceiling_iff. apply below_ceiling_iff in Hb. lia.
Qed.

Lemma C7_monotone_witness :
  (value (Integer 5) <= value (Rational (201 # 2)))%Q /\
  exists r1 d1 r2 d2,
    finishes (Integer 5) r1 d1 /\ finishes (Rational (201 # 2)) r2 d2 /\
    Prefix (emitted d1) (emitted d2).
Proof.
  split; [discriminate|].
  apply (C7_monotone (Integer 5) (Rational (201 # 2))). discriminate.
Defined.

(** C8: two calls with the same bound write the same thing and end the
    same way: what a call appends to standard output does not depend on
    what was written before, so the second call, which starts again from
    (0, 1), appends what the first did. *)
Theorem C8_same_output_twice (bd : Bound) :
  exists r d,
    forall w, exists fuel,
      call fuel bd w = Some (finish r (w ++ d)) /\
      call fuel bd (w ++ d) = Some (finish r ((w ++ d) ++ d)).
Proof.
  destruct (call_run bd) as [k [r (_ & _ & _ & Hrun & _)]].
  exists r, (appended r (fibs k)). intros w. exists (S k).
  split; apply Hrun; lia.
Qed.

(** C9: the loop ends for every bound, integer or not.  It completes
    exactly [k] rounds for some [k] (any fuel above [k] gives the same
    outcome, fuel up to [k] is too little).  Then either the test fails,
    [a] being no longer below the bound, and the call returns: so it is
    for every bound up to [str_limit], and with [k = 0] for every bound
    up to 0.  Or [a] is still below the bound but too long for [str],
    and the loop is left by [ValueError]. *)
Theorem C9_terminates (bd : Bound) (w : stdout) :
  exists k o,
    (forall fuel, (k < fuel)%nat -> loop fuel bd (init w) = Some o) /\
    (forall fuel, (fuel <= k)%nat -> loop fuel bd (init w) = None) /\
    match o with
    | Return s => s = Nat.iter k advance (init w) /\ ~ below (a s) bd
    | Raise e w' => e = ValueError /\ below (fib k) bd /\ str_limit <= fib k
    end /\
    ((value bd <= 0)%Q -> k = O /\ o = Return (init w)) /\
    ((value bd <= inject_Z str_limit)%Q -> exists s, o = Return s) /\
    exists o', forall fuel, (k < fuel)%nat -> call fuel bd w = Some o'.
Proof.
  destruct (fibonacci_run (ceiling bd))
    as [k [r (Hk & Hr & Hc & Hloop & Hshort & Hrun)]].
  exists k.
  exists (match r with
          | None => Return (Nat.iter k advance (init w))
          | Some e => Raise e (w ++ map print_term (fibs k))
          end).
  split; [intros fuel Hfuel; rewrite loop_ceiling; now apply Hloop|].
  split; [intros fuel Hfuel; rewrite loop_ceiling; now apply Hshort|].
  split.
  { destruct Hc as [[-> Hge]|[-> [Hlt HL]]].
    - split; [reflexivity|]. rewrite iter_advance. cbn [a].
      intros Hb. apply below_ceiling_iff in Hb. lia.
    - repeat split; [now apply below_ceiling_iff | exact HL]. }
  split.
  { intros H0. apply (ceiling_le bd 0) in H0.
    assert (Hk0 : k = O).
    { destruct k as [|k]; [reflexivity|].
      assert (H : fib 0 < ceiling bd /\ fib 0 < str_limit) by (apply Hk; lia).
      change (fib 0) with 0 in H. lia. }
    assert (Hr0 : r = None).
    { apply Hr. intros j Hj. pose proof (fib_nonneg j). lia. }
    subst k r. split; reflexivity. }
  split.
  { intros HL. assert (Hr0 : r = None).
    { apply Hr. intros j Hj. apply (small_bound bd HL).
      now apply below_ceiling_iff. }
    subst r. eexists. reflexivity. }
  exists (finish r (w ++ appended r (fibs k))).
  intros fuel Hfuel. rewrite call_ceiling. now apply Hrun.
Qed.

(** C10: for every bound, integer or not, the call ends and the terms
    it has emitted never decrease and none is negative. *)
Theorem C10_sorted_nonneg (bd : Bound) :
  exists r d,
    finishes bd r d /\
    Sorted Z.le (emitted d) /\
    Forall (fun t => 0 <= t) (emitted d).
Proof.
  destruct (call_run bd) as [k [r (_ & _ & _ & _ & Hf)]].
  exists r, (appended r (fibs k)). rewrite emitted_appended.
  repeat split; [exact Hf | apply fib_seq_sorted | apply fibs_nonneg].
Qed.

(** ** Further properties of [fibonacci] *)

(** X1: a bound [q] that is not an integer makes the call do exactly
    what the integer bound [Qceiling q] does, round by round and with
    the same outcome, because an integer is below [q] exactly when it is
    below that ceiling. *)
Theorem X1_rational_bound (q : Q) :
  (forall fuel w, fibonacci_num fuel q w = fibonacci fuel (Qceiling q) w) /\
  (forall t, (inject_Z t < q)%Q <-> t < Qceiling q).
Proof.
  split; [intros fuel w; apply fibonacci_num_ceiling | apply below_ceiling].
Qed.

(** X2: for a bound [n >= 1] the loop body is entered at most
    [2 * log2 n + 3] times: that many terms at most are emitted, and any
    fuel above it lets the call end, by returning or by raising. *)
Theorem X2_logarithmic_rounds (n : Z) :
  1 <= n ->
  exists r d,
    Z.of_nat (length (emitted d)) <= 2 * Z.log2 n + 3 /\
    forall w fuel,
      2 * Z.log2 n + 3 < Z.of_nat fuel ->
      fibonacci fuel n w = Some (finish r (w ++ d)).
Proof.
  intros Hn.
  destruct (fibonacci_run n) as [k [r (Hk & _ & Hc & _ & _ & Hrun)]].
  assert (Hcount : Z.of_nat k <= 2 * Z.log2 n + 3).
  { apply (count_below_log n k Hn). intros i Hi. now apply Hk. }
  exists r, (appended r (fibs k)). rewrite emitted_appended, fibs_length.
  split; [exact Hcount|].
  intros w fuel Hfuel. apply Hrun. lia.
Qed.

Lemma X2_logarithmic_rounds_witness :
  1 <= 100 /\
  exists r d,
    Z.of_nat (length (emitted d)) <= 2 * Z.log2 100 + 3 /\
    forall w fuel,
      2 * Z.log2 100 + 3 < Z.of_nat fuel ->
      fibonacci fuel 100 w = Some (finish r (w ++ d)).
Proof. split; [lia | apply (X2_logarithmic_rounds 100); lia]. Defined.

(** X3: whatever the bound, what a call writes is one line at most: it
    consists of decimal digits and spaces only, so there is no minus
    sign and no newline inside, followed by the newline exactly when the
    call returns. *)
Theorem X3_single_line (bd : Bound) :
  exists r d line,
    finishes bd r d /\
    Forall (fun c => digit_or_space c = true) (chars line) /\
    text d = match r with
             | None => (line ++ nl)%string
             | Some _ => line
             end.
Proof.
  destruct (call_run bd) as [k [r (_ & _ & _ & _ & Hf)]].
  exists r, (appended r (fibs k)), (spaced (fibs k)).
  split; [exact Hf|]. split; [apply spaced_chars, fibs_nonneg|].
  apply text_appended.
Qed.

(** X4: for every integer bound [n >= 2] the emitted terms start 0, 1,
    1, so the number 1 is printed twice; from the third term on the
    terms increase strictly, so nothing else is printed twice.  This
    holds whether the call returns or raises. *)
Theorem X4_only_one_repeats (n : Z) :
  2 <= n ->
  exists r d,
    finishes (Integer n) r d /\
    Prefix [0; 1; 1] (emitted d) /\
    forall i j, (2 <= i)%nat -> (i < j)%nat -> (j < length (emitted d))%nat ->
                nth i (emitted d) 0 < nth j (emitted d) 0.
Proof.
  intros Hn. pose proof str_limit_ge_1000 as HL.
  destruct (call_run (Integer n)) as [k [r (Hk & _ & _ & _ & Hf)]].
  assert (Hk3 : (3 <= k)%nat).
  { assert (H : (2 < k)%nat); [|lia].
    apply Hk. change (fib 2) with 1. cbn [below]. lia. }
  exists r, (appended r (fibs k)). rewrite emitted_appended, fibs_length.
  split; [exact Hf|]. split.
  - exact (fibs_prefix 3 k Hk3).
  - intros i j Hi Hij Hj. rewrite !fibs_nth by lia. now apply fib_strict.
Qed.

Lemma X4_only_one_repeats_witness :
  2 <= 100 /\
  exists r d,
    finishes (Integer 100) r d /\
    Prefix [0; 1; 1] (emitted d) /\
    forall i j, (2 <= i)%nat -> (i < j)%nat -> (j < length (emitted d))%nat ->
                nth i (emitted d) 0 < nth j (emitted d) 0.
Proof. split; [lia | apply (X4_only_one_repeats 100); lia]. Defined.

(** X5: for every integer bound [n] from 2 to [str_limit] the call
    returns, and the last term emitted is below [n] and at least half of
    it: the loop stops no earlier than it must. *)
Theorem X5_last_term_at_least_half (n : Z) :
  2 <= n -> n <= str_limit ->
  exists d,
    writes n d /\
    last (emitted d) 0 < n /\ n <= 2 * last (emitted d) 0.
Proof.
  intros Hn HL.
  destruct (fibonacci_run n) as [k [r (Hk & Hr & Hc & _ & _ & Hrun)]].
  assert (Hr0 : r = None) by (apply Hr; intros j Hj; lia).
  subst r. destruct Hc as [[_ Hge]|[Habs _]]; [|discriminate].
  pose proof (count_below_ge_3 n k Hn Hge) as Hk3.
  exists (calls_of (fibs k)). rewrite emitted_calls_of.
  split; [intros w; exists (S k); apply (Hrun w (S k)); lia|].
  destruct k as [|[|k]]; try lia.
  rewrite fibs_last. split.
  - apply Hk. lia.
  - pose proof (fib_S_le_double k). lia.
Qed.

Lemma X5_last_term_at_least_half_witness :
  2 <= 100 /\ 100 <= str_limit /\
  exists d,
    writes 100 d /\
    last (emitted d) 0 < 100 /\ 100 <= 2 * last (emitted d) 0.
Proof.
  pose proof str_limit_ge_1000 as HL.
  split; [lia|]. split; [lia|].
  apply (X5_last_term_at_least_half 100); lia.
Defined.

(** X6: for a bound strictly between 0 and 1, or equal to 1, only the
    term 0 is emitted: the text is "0", a space and the newline. *)
Theorem X6_fraction_bound (q : Q) :
  (0 < q)%Q -> (q <= 1)%Q ->
  exists d, writes_num q d /\ emitted d = [0] /\ text d = ("0 " ++ nl)%string.
Proof.
  intros H0 H1.
  assert (Hc : Qceiling q = 1).
  { pose proof (proj1 (below_ceiling q 0) H0) as Hlo.
    destruct (Z_le_gt_dec (Qceiling q) 1) as [Hle|Hgt]; [lia|].
    assert (H : 1 < Qceiling q) by lia.
    apply below_ceiling in H. exfalso. exact (Qlt_not_le _ _ H H1). }
  exists (calls_of [0]). repeat split.
  intros w. rewrite <- Hc in *.
  destruct (writes_from_run 2 1 (calls_of [0]) eq_refl w) as [fuel E].
  exists fuel. rewrite fibonacci_num_ceiling. rewrite Hc in *. exact E.
Qed.

Lemma X6_fraction_bound_witness :
  (0 < 1 # 2)%Q /\ (1 # 2 <= 1)%Q /\
  exists d,
    writes_num (1 # 2) d /\ emitted d = [0] /\ text d = ("0 " ++ nl)%string.
Proof.
  split; [reflexivity|]. split; [discriminate|].
  apply (X6_fraction_bound (1 # 2)); [reflexivity | discriminate].
Defined.

(** X7: for every integer bound from [2 * str_limit] on the call does
    not return: [print] raises [ValueError] at the first Fibonacci number
    of more than 4300 digits.  Up to then the call has printed exactly
    the Fibonacci numbers below [str_limit], each followed by a space,
    and no newline. *)
Theorem X7_large_bound_raises (n : Z) :
  2 * str_limit <= n ->
  exists d k,
    (forall w, exists fuel,
       fibonacci fuel n w = Some (Raise ValueError (w ++ d))) /\
    emitted d = fibs k /\
    (forall j, (j < k)%nat <-> fib j < str_limit) /\
    text d = spaced (emitted d) /\
    Forall (fun c => digit_or_space c = true) (chars (text d)).
Proof.
  intros Hn.
  destruct (large_bound_raises n Hn) as [k (Hk & _ & Hrun)].
  exists (map print_term (fibs k)), k.
  rewrite emitted_print_terms, text_print_terms.
  split; [intros w; exists (S k); apply Hrun; lia|].
  split; [reflexivity|]. split; [exact Hk|].
  split; [reflexivity | apply spaced_chars, fibs_nonneg].
Qed.

Lemma X7_large_bound_raises_witness :
  2 * str_limit <= 10 * str_limit /\
  exists d k,
    (forall w, exists fuel,
       fibonacci fuel (10 * str_limit) w = Some (Raise ValueError (w ++ d))) /\
    emitted d = fibs k /\
    (forall j, (j < k)%nat <-> fib j < str_limit) /\
    text d = spaced (emitted d) /\
    Forall (fun c => digit_or_space c = true) (chars (text d)).
Proof.
  pose proof str_limit_pos as HL.
  split; [lia | apply (X7_large_bound_raises (10 * str_limit)); lia].
Defined.
